(** * Verification of the least-traffic load balancer (cmd/lb/balancer.go)

    A shallow embedding of the dispatch core of the load balancer:
    the traffic ledger [traffic : map[string][]sizeTimestamp], the
    per-second sweep [reduceTraffic], [incrementTraffic], [health],
    [forward] and the frontend handler of [main].

    Go's [int] is a 64-bit two's complement integer: it is modelled as
    [Z] with the wrap-around of [+] written out ([int_add]).  Instants
    ([time.Time]) are modelled as [Z] nanoseconds on the monotonic clock.
    A Go map is a [gmap]; since the order in which [for k, v := range m]
    visits the entries is unspecified, every loop over a map takes the
    traversal order [ord] as an argument, with [ord ≡ₚ map_to_list m]. *)

From stdpp Require Import base gmap strings list fin_maps.
From Stdlib Require Import ZArith Lia Sorted.
Open Scope Z_scope.

(* ------------------------------------------------------------------ *)
(** ** Go integers *)

Definition int_modulus : Z := 2 ^ 64.
Definition max_int : Z := 2 ^ 63 - 1.   (* int(^uint(0) >> 1) *)
Definition min_int : Z := - 2 ^ 63.

(** Two's complement wrap-around of a 64-bit [int]. *)
Definition wrap64 (z : Z) : Z := (z + 2 ^ 63) mod int_modulus - 2 ^ 63.

(** Go's [a + b] on [int]. *)
Definition int_add (a b : Z) : Z := wrap64 (a + b).

Definition second : Z := 1000000000.   (* time.Second, in nanoseconds *)

(* ------------------------------------------------------------------ *)
(** ** The traffic ledger *)

(** [type sizeTimestamp struct { size int; timestamp time.Time }] *)
Record sizeTimestamp := { size : Z; timestamp : Z }.

(** [traffic = make(map[string][]sizeTimestamp)] *)
Abbreviation ledger := (gmap string (list sizeTimestamp)).

(** The summing loop that occurs in [incrementTraffic], in the health
    goroutine and in the frontend handler:
    [total := 0; for _, st := range queue { total += st.size }]. *)
Definition go_sum (queue : list sizeTimestamp) : Z :=
  fold_left (fun acc st => int_add acc (size st)) queue 0.

(** [traffic[dst]]: a missing key reads as the nil slice. *)
Definition lookup_queue (m : ledger) (dst : string) : list sizeTimestamp :=
  default [] (m !! dst).

(* ------------------------------------------------------------------ *)
(** ** Selection (frontend handler of [main], lines 172-186) *)

(** One pass of
<<
    for server, serverQueue := range traffic {
        serverTraffic := 0
        for _, st := range serverQueue { serverTraffic += st.size }
        if serverTraffic < minTraffic {
            minTraffic = serverTraffic
            minTrafficServer = server
        }
    }
>>
    over the entries in traversal order, threading
    [(minTrafficServer, minTraffic)]. *)
Fixpoint select_loop (ord : list (string * list sizeTimestamp))
    (minTrafficServer : string) (minTraffic : Z) : string * Z :=
  match ord with
  | [] => (minTrafficServer, minTraffic)
  | (server, serverQueue) :: ord' =>
      let serverTraffic := go_sum serverQueue in
      if serverTraffic <? minTraffic
      then select_loop ord' server serverTraffic
      else select_loop ord' minTrafficServer minTraffic
  end.

(** [var minTrafficServer string; minTraffic := int(^uint(0) >> 1)]:
    the selected server, [""] meaning none. *)
Definition select (ord : list (string * list sizeTimestamp)) : string :=
  fst (select_loop ord "" max_int).

(** [main], lines 146-150: [traffic[server] = make([]sizeTimestamp, 0)]
    for every server of the pool, starting from the empty map. *)
Definition init_traffic (pool : list string) : ledger :=
  fold_left (fun m server => <[server := []]> m) pool ∅.

(** [serversPool] *)
Definition serversPool : list string :=
  ["server1:8080"; "server2:8080"; "server3:8080"].

(* ------------------------------------------------------------------ *)
(** ** Recording traffic ([incrementTraffic], lines 62-76) *)

(** [traffic[dst] = append(traffic[dst], sizeTimestamp{size, time.Now()})];
    [now] is the reading of [time.Now()].  The total that follows is only
    logged. *)
Definition incrementTraffic (dst : string) (sz : Z) (now : Z) (m : ledger)
    : ledger :=
  <[dst := lookup_queue m dst ++ [{| size := sz; timestamp := now |}]]> m.

(* ------------------------------------------------------------------ *)
(** ** The decay sweep (one tick of [reduceTraffic], lines 81-93) *)

(** [newQueue] for one server: keep [st] when
    [st.timestamp.After(cutoff)], with [cutoff = now - 5s]. *)
Definition prune_queue (now : Z) (queue : list sizeTimestamp)
    : list sizeTimestamp :=
  let cutoff := now - 5 * second in
  List.filter (fun st => cutoff <? timestamp st) queue.

(** The body of one tick, under the lock:
<<
    for server, queue := range traffic {
        newQueue := make([]sizeTimestamp, 0, len(queue))
        cutoff := time.Now().Add(-5 * time.Second)
        for _, st := range queue { if st.timestamp.After(cutoff) { ... } }
        traffic[server] = newQueue
    }
>>
    [time.Now()] is read once per visited server; [clock i] is the
    reading taken at the [i]-th iteration.  Only the key being visited
    is assigned, so each visited value is the one of the snapshot. *)
Fixpoint reduce_pass (ord : list (string * list sizeTimestamp))
    (clock : nat -> Z) (i : nat) (m : ledger) : ledger :=
  match ord with
  | [] => m
  | (server, queue) :: ord' =>
      reduce_pass ord' clock (S i) (<[server := prune_queue (clock i) queue]> m)
  end.

(* ------------------------------------------------------------------ *)
(** ** HTTP headers *)

(** [validHeaderFieldByte] of net/textproto: the token characters. *)
Definition valid_header_byte (c : Ascii.ascii) : bool :=
  let n := Ascii.nat_of_ascii c in
  ((48 <=? n) && (n <=? 57))%nat || ((65 <=? n) && (n <=? 90))%nat
  || ((97 <=? n) && (n <=? 122))%nat
  || existsb (Ascii.eqb c) (String.list_ascii_of_string "!#$%&'*+-.^_`|~").

(** The case rewriting loop of [canonicalMIMEHeaderKey]: upper-case the
    first letter and every letter after ['-'], lower-case the others. *)
Fixpoint canon_case (upper : bool) (s : string) : string :=
  match s with
  | EmptyString => EmptyString
  | String c s' =>
      let n := Ascii.nat_of_ascii c in
      let c' :=
        if upper && ((97 <=? n) && (n <=? 122))%nat
        then Ascii.ascii_of_nat (n - 32)
        else if negb upper && ((65 <=? n) && (n <=? 90))%nat
        then Ascii.ascii_of_nat (n + 32)
        else c in
      String c' (canon_case (Ascii.eqb c' (Ascii.ascii_of_nat 45) (* '-' *)) s')
  end.

(** [textproto.CanonicalMIMEHeaderKey]: a key holding a byte that is not
    a token character is returned unchanged. *)
Definition canonical_key (s : string) : string :=
  if forallb valid_header_byte (String.list_ascii_of_string s) then canon_case true s else s.

(** [http.Header] is [map[string][]string]. *)
Abbreviation header := (gmap string (list string)).

(** [h.Add(k, v)]: append [v] to the values of the canonical key. *)
Definition header_add (k v : string) (h : header) : header :=
  let k' := canonical_key k in
  <[k' := default [] (h !! k') ++ [v]]> h.

(** [h.Set(k, v)]: replace the values of the canonical key by [[v]]. *)
Definition header_set (k v : string) (h : header) : header :=
  <[canonical_key k := [v]]> h.

(** [forward], lines 120-124:
    [for k, values := range resp.Header { for _, value := range values
    { rw.Header().Add(k, value) } }], visiting [resp.Header] in the
    order [hord]. *)
Definition copy_headers (hord : list (string * list string)) (h : header)
    : header :=
  fold_left (fun h '(k, values) =>
               fold_left (fun h value => header_add k value h) values h)
            hord h.

(** The [http.ResponseWriter] seen by a handler: the mutable header map
    [rw.Header()], the status line and header map fixed by the first
    [WriteHeader] (later calls are superfluous and ignored), and the
    bytes handed to [Write]. *)
Record writer := {
  rw_header : header;
  rw_sent : option (Z * header);
  rw_body : list Byte.byte
}.

Definition fresh_writer : writer :=
  {| rw_header := ∅; rw_sent := None; rw_body := [] |}.

Definition set_rw_header (h : header) (w : writer) : writer :=
  {| rw_header := h; rw_sent := rw_sent w; rw_body := rw_body w |}.

(** [rw.WriteHeader(code)] *)
Definition write_header (code : Z) (w : writer) : writer :=
  match rw_sent w with
  | Some _ => w
  | None => {| rw_header := rw_header w; rw_sent := Some (code, rw_header w);
               rw_body := rw_body w |}
  end.

(** [rw.Write(b)]: sends the status line 200 first if none was sent. *)
Definition write (b : list Byte.byte) (w : writer) : writer :=
  let w' := write_header 200 w in
  {| rw_header := rw_header w'; rw_sent := rw_sent w';
     rw_body := rw_body w' ++ b |}.

(* ------------------------------------------------------------------ *)
(** ** Configuration *)

(** The package-level flag cells and the [timeout] variable. *)
Record globals := {
  port : Z;
  timeoutSec : Z;
  https : bool;
  traceEnabled : bool;
  timeout : Z            (* time.Duration, in nanoseconds *)
}.

(** Package initialisation, before [main] runs: [flag.Int] and
    [flag.Bool] allocate the cells with their defaults, and then
    [timeout = time.Duration( *timeoutSec) * time.Second] is evaluated
    with the value the cell holds at that moment. *)
Definition init_globals : globals :=
  let timeoutSec0 := 3 in
  {| port := 8090; timeoutSec := timeoutSec0; https := false;
     traceEnabled := false; timeout := wrap64 (timeoutSec0 * second) |}.

(** A command-line setting, as [flag.Parse] decodes it
    ([-port=N], [-timeout-sec=N], [-https], [-trace]). *)
Inductive flag_arg :=
| ArgPort (n : Z)
| ArgTimeoutSec (n : Z)
| ArgHttps (b : bool)
| ArgTrace (b : bool).

(** [flag.Parse()] stores each setting into its flag's cell; it assigns
    no other variable. *)
Definition apply_flag (g : globals) (a : flag_arg) : globals :=
  match a with
  | ArgPort n => {| port := n; timeoutSec := timeoutSec g; https := https g;
                    traceEnabled := traceEnabled g; timeout := timeout g |}
  | ArgTimeoutSec n => {| port := port g; timeoutSec := n; https := https g;
                    traceEnabled := traceEnabled g; timeout := timeout g |}
  | ArgHttps b => {| port := port g; timeoutSec := timeoutSec g; https := b;
                    traceEnabled := traceEnabled g; timeout := timeout g |}
  | ArgTrace b => {| port := port g; timeoutSec := timeoutSec g; https := https g;
                    traceEnabled := b; timeout := timeout g |}
  end.

Definition flag_parse (args : list flag_arg) (g : globals) : globals :=
  fold_left apply_flag args g.

(** The globals in effect once [main] has called [flag.Parse()]. *)
Definition main_globals (args : list flag_arg) : globals :=
  flag_parse args init_globals.

(** [scheme()] *)
Definition scheme (g : globals) : string :=
  if https g then "https" else "http".

(* ------------------------------------------------------------------ *)
(** ** Outbound calls *)

(** A request as [http.DefaultClient.Do] receives it: method, URL parts,
    [Host], body, and the deadline of its context, relative to the
    moment the context was created ([None]: no deadline). *)
Record request := {
  req_method : string;
  req_scheme : string;
  req_url_host : string;
  req_path : string;
  req_host : string;
  req_body : list Byte.byte;
  req_timeout : option Z
}.

(** Transport errors returned by [Do]; a context deadline expiring is
    one of them. *)
Inductive transport_error :=
| ErrDeadlineExceeded
| ErrCanceled
| ErrConnRefused
| ErrDNS
| ErrOther.

(** The outcome of [io.ReadAll(resp.Body)]. *)
Inductive body_result :=
| BodyOk (bytes : list Byte.byte)
| BodyErr.

Record response := {
  status_code : Z;
  resp_header : header;
  resp_body : body_result
}.

Inductive do_result :=
| DoErr (e : transport_error)
| DoOk (resp : response).

(** The network, as seen through [http.DefaultClient.Do]. *)
Definition client := request -> do_result.

(** [health], lines 49-51: [context.WithTimeout(context.Background(),
    timeout)] and [GET fmt.Sprintf("%s://%s/health", scheme(), dst)],
    whose URL parses to scheme [scheme()], host [dst], path [/health]. *)
Definition health_request (g : globals) (dst : string) : request :=
  {| req_method := "GET"; req_scheme := scheme g; req_url_host := dst;
     req_path := "/health"; req_host := dst; req_body := [];
     req_timeout := Some (timeout g) |}.

(** [health(dst)], lines 48-60. *)
Definition health (g : globals) (do : client) (dst : string) : bool :=
  match do (health_request g dst) with
  | DoErr _ => false
  | DoOk resp => if Z.eqb (status_code resp) 200 then true else false
  end.

(** [forward], lines 98-103: [r.Clone(ctx)] with
    [ctx = context.WithTimeout(r.Context(), timeout)], then
    [URL.Host = dst], [URL.Scheme = scheme()], [Host = dst].  The inbound
    request [r] carries no deadline of its own. *)
Definition fwd_request (g : globals) (dst : string) (r : request) : request :=
  {| req_method := req_method r; req_scheme := scheme g; req_url_host := dst;
     req_path := req_path r; req_host := dst; req_body := req_body r;
     req_timeout := Some (timeout g) |}.

(** The [error] returned by [forward]. *)
Inductive fwd_error :=
| FwdTransport (e : transport_error)
| FwdRead.

(** [forward(dst, rw, r)], lines 97-140.  [now] is the reading of
    [time.Now()] inside [incrementTraffic]; [hord] is the order in which
    [range resp.Header] visits the backend's headers. *)
Definition forward (g : globals) (do : client) (dst : string) (r : request)
    (now : Z) (hord : list (string * list string)) (m : ledger) (w : writer)
    : ledger * writer * option fwd_error :=
  match do (fwd_request g dst r) with
  | DoOk resp =>
      match resp_body resp with
      | BodyErr => (m, write_header 500 w, Some FwdRead)
      | BodyOk bodyBytes =>
          let m' := incrementTraffic dst (Z.of_nat (length bodyBytes)) now m in
          let w1 := set_rw_header (copy_headers hord (rw_header w)) w in
          let w2 := if traceEnabled g
                    then set_rw_header (header_set "lb-from" dst (rw_header w1)) w1
                    else w1 in
          let w3 := write_header (status_code resp) w2 in
          (m', write bodyBytes w3, None)
      end
  | DoErr e => (m, write_header 503 w, Some (FwdTransport e))
  end.

(* ------------------------------------------------------------------ *)
(** ** The frontend handler ([main], lines 171-195) *)

Inductive dispatch :=
| NoServer
| Forwarded (dst : string) (err : option fwd_error).

(** [ord] is the order in which [range traffic] visits the ledger. *)
Definition handler (g : globals) (do : client)
    (ord : list (string * list sizeTimestamp)) (r : request) (now : Z)
    (hord : list (string * list string)) (m : ledger) (w : writer)
    : ledger * writer * dispatch :=
  let minTrafficServer := select ord in
  if String.eqb minTrafficServer "" then (m, write_header 503 w, NoServer)
  else
    let '(m', w', e) := forward g do minTrafficServer r now hord m w in
    (m', w', Forwarded minTrafficServer e).

(* ------------------------------------------------------------------ *)
(** ** Ledger states reachable from [main] *)

(** Every access to [traffic] is a critical section under [mu]; they are
    executed one at a time, at the instant [t] of a monotonic clock.
    The ledger starts as built by [main] (lines 146-150); a sweep tick
    runs [reduce_pass] on the current ledger (lines 81-93); a request
    that selected [select ord0] in some earlier critical section records
    [len(bodyBytes)] for that server at time [t] ([incrementTraffic],
    called from [forward], line 118), whatever other sections ran in
    between. *)
Inductive reachable : Z -> ledger -> Prop :=
| reach_init t : reachable t (init_traffic serversPool)
| reach_wait t t' m : t <= t' -> reachable t m -> reachable t' m
| reach_record t m t0 m0 (ord0 : list (string * list sizeTimestamp)) (n : nat) :
    reachable t0 m0 -> ord0 ≡ₚ map_to_list m0 -> select ord0 <> "" ->
    Z.of_nat n <= max_int ->
    reachable t m -> reachable t (incrementTraffic (select ord0) (Z.of_nat n) t m)
| reach_sweep t m (ord : list (string * list sizeTimestamp)) (clock : nat -> Z) :
    ord ≡ₚ map_to_list m -> reachable t m -> reachable t (reduce_pass ord clock 0 m).


(* ------------------------------------------------------------------ *)
(** ** Sanity checks on small inputs *)

Example canonical_lb_from : canonical_key "lb-from" = "Lb-From".
Proof. reflexivity. Qed.

Example canonical_content_type : canonical_key "CONTENT-type" = "Content-Type".
Proof. reflexivity. Qed.

Example go_sum_small :
  go_sum [{| size := 3; timestamp := 0 |}; {| size := 4; timestamp := 1 |}] = 7.
Proof. reflexivity. Qed.

Example go_sum_wraps :
  go_sum [{| size := max_int; timestamp := 0 |}; {| size := 1; timestamp := 1 |}]
  = min_int.
Proof. reflexivity. Qed.

Example select_small :
  select [("a", [{| size := 5; timestamp := 0 |}]); ("b", []); ("c", [])] = "b".
Proof. reflexivity. Qed.

Example select_empty : select [] = "".
Proof. reflexivity. Qed.

(* ------------------------------------------------------------------ *)
(** ** The selection loop *)

Section Selection.

Implicit Types (ord pre post : list (string * list sizeTimestamp)).

(** Loop invariant of [select_loop]: the final minimum is below every
    visited sum and below the initial one; either no entry improved on
    the initial minimum, or the result is an entry of [ord] whose sum is
    the final minimum and which is preceded only by entries with a
    strictly larger sum. *)
Lemma select_loop_spec ord s0 t0 :
  let '(s, t) := select_loop ord s0 t0 in
  t <= t0 /\
  (forall p, p ∈ ord -> t <= go_sum p.2) /\
  ((s, t) = (s0, t0) \/
   exists pre q post, ord = pre ++ (s, q) :: post /\ go_sum q = t /\ t < t0 /\
     forall p, p ∈ pre -> t < go_sum p.2).
Proof.
  revert s0 t0. induction ord as [|[k q] ord' IH]; intros s0 t0; simpl.
  - split; [lia|]. split; [intros p Hp; set_solver|]. by left.
  - destruct (Z.ltb_spec (go_sum q) t0) as [Hlt|Hge].
    + specialize (IH k (go_sum q)).
      destruct (select_loop ord' k (go_sum q)) as [s t] eqn:E.
      destruct IH as (Ht & Hall & Hcase). split; [lia|]. split.
      { intros p Hp. apply elem_of_cons in Hp as [->|Hp]; [simpl; lia|auto]. }
      right. destruct Hcase as [Heq|(pre & q' & post & -> & Hq' & Hlt' & Hpre)].
      * injection Heq as -> ->. exists [], q, ord'. repeat split; auto.
        intros p Hp. set_solver.
      * exists ((k, q) :: pre), q', post. repeat split; auto; [lia|].
        intros p Hp. apply elem_of_cons in Hp as [->|Hp]; [simpl; lia|auto].
    + specialize (IH s0 t0).
      destruct (select_loop ord' s0 t0) as [s t] eqn:E.
      destruct IH as (Ht & Hall & Hcase). split; [lia|]. split.
      { intros p Hp. apply elem_of_cons in Hp as [->|Hp]; [simpl; lia|auto]. }
      destruct Hcase as [Heq|(pre & q' & post & -> & Hq' & Hlt' & Hpre)];
        [by left|right].
      exists ((k, q) :: pre), q', post. repeat split; auto.
      intros p Hp. apply elem_of_cons in Hp as [->|Hp]; [simpl; lia|auto].
Qed.

End Selection.

(** The sums the dispatcher compares for two distinct backends, as seen
    by the loop, are those of their ledger entries. *)
Lemma ord_lookup (m : ledger) (ord : list (string * list sizeTimestamp)) k q :
  ord ≡ₚ map_to_list m -> (k, q) ∈ ord <-> m !! k = Some q.
Proof. intros Hord. rewrite Hord. apply elem_of_map_to_list. Qed.

(** C1 (least-load selection).  Whatever order [range traffic] visits
    the ledger in, when the handler's loop selects a backend
    ([minTrafficServer <> ""]), that backend is in the ledger, its summed
    recorded size (the [int] sum the handler computes) is at most the sum
    of every backend of the ledger, and every backend visited before it
    has a strictly larger sum: on a tie the first one visited wins. *)
Theorem select_least_load (m : ledger) (ord : list (string * list sizeTimestamp)) :
  ord ≡ₚ map_to_list m ->
  select ord <> "" ->
  exists q, m !! select ord = Some q /\
    (forall k q', m !! k = Some q' -> go_sum q <= go_sum q') /\
    exists pre post, ord = pre ++ (select ord, q) :: post /\
      forall p, p ∈ pre -> go_sum q < go_sum p.2.
Proof.
  intros Hord Hne. unfold select in *.
  pose proof (select_loop_spec ord "" max_int) as Hspec.
  destruct (select_loop ord "" max_int) as [s t] eqn:E; simpl in *.
  destruct Hspec as (_ & Hall & [Heq | (pre & q & post & Hsplit & Hq & _ & Hpre)]).
  { injection Heq as -> ->. congruence. }
  exists q. split; [|split].
  - apply (ord_lookup m ord); [done|]. rewrite Hsplit. set_solver.
  - intros k q' Hk. rewrite Hq. apply (Hall (k, q')).
    by apply (ord_lookup m ord).
  - exists pre, post. split; [done|]. intros p Hp. rewrite Hq. auto.
Qed.

Lemma select_least_load_witness :
  let m : ledger := <[ "server1:8080" := [{| size := 10; timestamp := 0 |}] ]>
                    (<[ "server2:8080" := [] ]> ∅) in
  exists q, m !! "server2:8080" = Some q /\
    (forall k q', m !! k = Some q' -> go_sum q <= go_sum q') /\ True.
Proof.
  pose (ord := [("server1:8080", [{| size := 10; timestamp := 0 |}]);
                ("server2:8080", [])]).
  assert (Hsel : select ord = "server2:8080") by reflexivity.
  destruct (select_least_load
              (<[ "server1:8080" := [{| size := 10; timestamp := 0 |}] ]>
                 (<[ "server2:8080" := [] ]> ∅)) ord)
    as (q & Hq & Hmin & _).
  - unfold ord. rewrite map_to_list_insert; [|by vm_compute].
    rewrite map_to_list_insert; [|by vm_compute]. rewrite map_to_list_empty.
    reflexivity.
  - rewrite Hsel. discriminate.
  - rewrite Hsel in Hq. exists q. eauto.
Defined.

(* ------------------------------------------------------------------ *)
(** ** The decay sweep *)

(** Each visited key receives the pruned snapshot queue, with the clock
    reading of its own iteration; unvisited keys are untouched. *)
Lemma reduce_pass_lookup (ord : list (string * list sizeTimestamp))
    (clock : nat -> Z) (i : nat) (m : ledger) (k : string) :
  NoDup ord.*1 ->
  (forall j q, ord !! j = Some (k, q) ->
     reduce_pass ord clock i m !! k = Some (prune_queue (clock (i + j)%nat) q)) /\
  (k ∉ ord.*1 -> reduce_pass ord clock i m !! k = m !! k).
Proof.
  revert i m. induction ord as [|[s q] ord' IH]; intros i m Hnd; simpl.
  - split; [intros j q Hj; done | done].
  - apply NoDup_cons in Hnd as [Hs Hnd]. split.
    + intros j q' Hj. destruct j as [|j]; simpl in Hj.
      * injection Hj as -> ->. rewrite (proj2 (IH (S i) _ Hnd)); [|done].
        rewrite lookup_insert_eq. do 3 f_equal. lia.
      * rewrite (proj1 (IH (S i) _ Hnd) j q' Hj). do 3 f_equal. lia.
    + intros Hk. apply not_elem_of_cons in Hk as [Hks Hk].
      rewrite (proj2 (IH (S i) _ Hnd) Hk). by rewrite lookup_insert_ne.
Qed.

(** A sweep assigns only keys it visits, so it adds no key. *)
Lemma reduce_pass_absent (m : ledger) (ord : list (string * list sizeTimestamp))
    (clock : nat -> Z) (k : string) :
  ord ≡ₚ map_to_list m -> m !! k = None -> reduce_pass ord clock 0 m !! k = None.
Proof.
  intros Hord Hk.
  assert (Hnd : NoDup ord.*1) by (rewrite Hord; apply NoDup_fst_map_to_list).
  rewrite (proj2 (reduce_pass_lookup ord clock 0 m k Hnd)); [done|].
  intros Hin. apply list_elem_of_fmap in Hin as ([k' q] & -> & Hin).
  assert (m !! k' = Some q) by (by apply (ord_lookup m ord)). simpl in *. congruence.
Qed.

(** C2 (one sweep tick).  Whatever order [range traffic] visits the
    ledger in, after the tick every backend of the ledger holds exactly
    the samples of its queue with [timestamp > now - 5s], in their
    original order ([List.filter]), where [now] is the [time.Now()]
    reading taken when that backend is visited; every retained sample
    satisfies [timestamp > now - 5s]; no key is added. *)
Theorem reduce_pass_prunes (m : ledger) (ord : list (string * list sizeTimestamp))
    (clock : nat -> Z) :
  ord ≡ₚ map_to_list m ->
  forall k,
    match m !! k with
    | None => reduce_pass ord clock 0 m !! k = None
    | Some q =>
        exists i,
          reduce_pass ord clock 0 m !! k =
            Some (List.filter (fun st => clock i - 5 * second <? timestamp st) q) /\
          forall st, st ∈ List.filter (fun st => clock i - 5 * second <? timestamp st) q ->
                     clock i - 5 * second < timestamp st
    end.
Proof.
  intros Hord k.
  assert (Hnd : NoDup ord.*1).
  { rewrite Hord. apply NoDup_fst_map_to_list. }
  destruct (m !! k) as [q|] eqn:Hk.
  - assert (Hin : (k, q) ∈ ord) by (by apply (ord_lookup m ord)).
    apply list_elem_of_lookup in Hin as [j Hj].
    exists j. split.
    + by rewrite (proj1 (reduce_pass_lookup ord clock 0 m k Hnd) j q Hj).
    + intros st Hst. apply list_elem_of_In, filter_In in Hst as [_ Hst].
      by apply Z.ltb_lt.
  - by apply reduce_pass_absent.
Qed.

Lemma reduce_pass_prunes_witness :
  exists i,
    reduce_pass [("server1:8080", [{| size := 7; timestamp := 0 |};
                                   {| size := 9; timestamp := 6 * second |}])]
                (fun _ => 10 * second) 0
                {[ "server1:8080" := [{| size := 7; timestamp := 0 |};
                                      {| size := 9; timestamp := 6 * second |}] ]}
      !! "server1:8080" =
    Some (List.filter (fun st => (fun _ : nat => 10 * second) i - 5 * second <? timestamp st)
            [{| size := 7; timestamp := 0 |}; {| size := 9; timestamp := 6 * second |}]).
Proof.
  pose proof (reduce_pass_prunes
    {[ "server1:8080" := [{| size := 7; timestamp := 0 |};
                          {| size := 9; timestamp := 6 * second |}] ]}
    [("server1:8080", [{| size := 7; timestamp := 0 |};
                       {| size := 9; timestamp := 6 * second |}])]
    (fun _ => 10 * second)) as H.
  specialize (H ltac:(by rewrite map_to_list_singleton) "server1:8080").
  rewrite lookup_singleton_eq in H. destruct H as [i [Hi _]]. exists i. exact Hi.
Defined.

(* ------------------------------------------------------------------ *)
(** ** Forwarding *)

Lemma go_sum_snoc (q : list sizeTimestamp) (st : sizeTimestamp) :
  go_sum (q ++ [st]) = int_add (go_sum q) (size st).
Proof. unfold go_sum. by rewrite fold_left_app. Qed.

(** Without overflow, Go's [+] on [int] is the sum of integers. *)
Lemma int_add_in_range (a b : Z) :
  min_int <= a + b <= max_int -> int_add a b = a + b.
Proof.
  intros H. unfold int_add, wrap64, int_modulus, min_int, max_int in *.
  rewrite Z.mod_small; lia.
Qed.

(** C3 (traffic recording on success).  When the backend call succeeds
    and its body [bodyBytes] is read, [forward] returns no error, the
    summed load of [dst] becomes [old + S] in Go [int] arithmetic, where
    [S = len(bodyBytes)] (exactly [old + S] when that stays within the
    range of [int]), and every other backend's queue is unchanged. *)
Theorem forward_records_body_size (g : globals) (do : client) (dst : string)
    (r : request) (now : Z) (hord : list (string * list string)) (m : ledger)
    (w : writer) (resp : response) (bodyBytes : list Byte.byte) :
  do (fwd_request g dst r) = DoOk resp ->
  resp_body resp = BodyOk bodyBytes ->
  let '(m', _, e) := forward g do dst r now hord m w in
  e = None /\
  go_sum (lookup_queue m' dst) =
    int_add (go_sum (lookup_queue m dst)) (Z.of_nat (length bodyBytes)) /\
  (min_int <= go_sum (lookup_queue m dst) + Z.of_nat (length bodyBytes) <= max_int ->
   go_sum (lookup_queue m' dst) =
     go_sum (lookup_queue m dst) + Z.of_nat (length bodyBytes)) /\
  (forall k, k <> dst -> m' !! k = m !! k).
Proof.
  intros Hdo Hbody. unfold forward. rewrite Hdo, Hbody.
  set (st := {| size := Z.of_nat (length bodyBytes); timestamp := now |}).
  assert (Hq : lookup_queue (incrementTraffic dst (Z.of_nat (length bodyBytes)) now m) dst
               = lookup_queue m dst ++ [st]).
  { unfold incrementTraffic, lookup_queue at 1. by rewrite lookup_insert_eq. }
  assert (Hs : go_sum (lookup_queue m dst ++ [st]) =
               int_add (go_sum (lookup_queue m dst)) (Z.of_nat (length bodyBytes)))
    by apply go_sum_snoc.
  rewrite Hq. split; [done|]. split; [exact Hs|]. split.
  - intros Hr. rewrite Hs. by apply int_add_in_range.
  - intros k Hk. unfold incrementTraffic. by rewrite lookup_insert_ne.
Qed.

Lemma forward_records_body_size_witness :
  let g := main_globals [] in
  let resp := {| status_code := 200; resp_header := ∅;
                 resp_body := BodyOk [Byte.x61; Byte.x62; Byte.x63] |} in
  let do : client := fun _ => DoOk resp in
  let r := {| req_method := "GET"; req_scheme := "http"; req_url_host := "";
              req_path := "/"; req_host := "balancer:8090"; req_body := [];
              req_timeout := None |} in
  let m : ledger := {[ "server1:8080" := [{| size := 4; timestamp := 0 |}] ]} in
  let '(m', _, e) := forward g do "server1:8080" r 1 [] m fresh_writer in
  e = None /\ go_sum (lookup_queue m' "server1:8080") = int_add 4 3.
Proof.
  intros g resp do r m.
  pose proof (forward_records_body_size g do "server1:8080" r 1 [] m fresh_writer
                resp [Byte.x61; Byte.x62; Byte.x63] eq_refl eq_refl) as H.
  destruct (forward g do "server1:8080" r 1 [] m fresh_writer) as [[m' w'] e].
  destruct H as (He & Hs & _). split; [exact He|]. rewrite Hs. reflexivity.
Defined.

(** C4 (no record on transport failure).  When [Do] fails with any
    transport error, [forward] leaves the ledger as it is, sends the
    status 503 (the handler has not written yet), writes no body, and
    returns the error. *)
Theorem forward_transport_failure (g : globals) (do : client) (dst : string)
    (r : request) (now : Z) (hord : list (string * list string)) (m : ledger)
    (w : writer) (e : transport_error) :
  do (fwd_request g dst r) = DoErr e ->
  rw_sent w = None ->
  let '(m', w', err) := forward g do dst r now hord m w in
  m' = m /\ rw_sent w' = Some (503, rw_header w) /\ rw_body w' = rw_body w /\
  err = Some (FwdTransport e).
Proof.
  intros Hdo Hw. unfold forward. rewrite Hdo. unfold write_header. rewrite Hw.
  simpl. auto.
Qed.

Lemma forward_transport_failure_witness :
  let g := main_globals [] in
  let do : client := fun _ => DoErr ErrDeadlineExceeded in
  let r := {| req_method := "GET"; req_scheme := "http"; req_url_host := "";
              req_path := "/"; req_host := "balancer:8090"; req_body := [];
              req_timeout := None |} in
  let '(m', w', err) := forward g do "server2:8080" r 0 [] (init_traffic serversPool)
                          fresh_writer in
  m' = init_traffic serversPool /\ rw_sent w' = Some (503, ∅) /\
  err = Some (FwdTransport ErrDeadlineExceeded).
Proof.
  intros g do r.
  pose proof (forward_transport_failure g do "server2:8080" r 0 []
                (init_traffic serversPool) fresh_writer ErrDeadlineExceeded
                eq_refl eq_refl) as H.
  destruct (forward g do "server2:8080" r 0 [] (init_traffic serversPool) fresh_writer)
    as [[m' w'] err].
  destruct H as (Hm & Hs & _ & He). auto.
Defined.

(** C7 (body read failure).  When [Do] succeeds but [io.ReadAll] fails,
    [forward] leaves the ledger as it is, sends the status 500 (no status
    and no body byte had been written), writes no body, and returns the
    error. *)
Theorem forward_read_failure (g : globals) (do : client) (dst : string)
    (r : request) (now : Z) (hord : list (string * list string)) (m : ledger)
    (w : writer) (resp : response) :
  do (fwd_request g dst r) = DoOk resp ->
  resp_body resp = BodyErr ->
  rw_sent w = None ->
  let '(m', w', err) := forward g do dst r now hord m w in
  m' = m /\ rw_sent w' = Some (500, rw_header w) /\ rw_body w' = rw_body w /\
  err = Some FwdRead.
Proof.
  intros Hdo Hbody Hw. unfold forward. rewrite Hdo, Hbody. unfold write_header.
  rewrite Hw. simpl. auto.
Qed.

Lemma forward_read_failure_witness :
  let g := main_globals [] in
  let resp := {| status_code := 200; resp_header := ∅; resp_body := BodyErr |} in
  let do : client := fun _ => DoOk resp in
  let r := {| req_method := "GET"; req_scheme := "http"; req_url_host := "";
              req_path := "/"; req_host := "balancer:8090"; req_body := [];
              req_timeout := None |} in
  let '(m', w', err) := forward g do "server3:8080" r 0 [] (init_traffic serversPool)
                          fresh_writer in
  m' = init_traffic serversPool /\ rw_sent w' = Some (500, ∅) /\ rw_body w' = [] /\
  err = Some FwdRead.
Proof.
  intros g resp do r.
  pose proof (forward_read_failure g do "server3:8080" r 0 []
                (init_traffic serversPool) fresh_writer resp eq_refl eq_refl eq_refl) as H.
  destruct (forward g do "server3:8080" r 0 [] (init_traffic serversPool) fresh_writer)
    as [[m' w'] err].
  exact H.
Defined.

(* ------------------------------------------------------------------ *)
(** ** Relaying the response *)

(** [rw.Header().Add(k, v)] for the successive values of one header. *)
Lemma add_values_cons (k v : string) (vs : list string) (h : header) :
  canonical_key k = k ->
  fold_left (fun h value => header_add k value h) (v :: vs) h =
  <[k := default [] (h !! k) ++ v :: vs]> h.
Proof.
  intros Hk. revert v h. induction vs as [|v' vs IH]; intros v h.
  - simpl. unfold header_add. by rewrite Hk.
  - change (fold_left (fun h value => header_add k value h) (v' :: vs)
              (header_add k v h) = <[k := default [] (h !! k) ++ v :: v' :: vs]> h).
    rewrite IH. unfold header_add. rewrite Hk, lookup_insert_eq, insert_insert_eq.
    simpl. by rewrite <- app_assoc.
Qed.

(** The copy loop into a map holding none of the copied keys, when every
    key is canonical and has a value (as the HTTP transport delivers
    [resp.Header]), puts the backend's headers over that map. *)
Lemma copy_headers_union (hord : list (string * list string)) (h : header) :
  Forall (fun '(k, vs) => canonical_key k = k /\ vs <> []) hord ->
  NoDup hord.*1 ->
  (forall k, k ∈ hord.*1 -> h !! k = None) ->
  copy_headers hord h = list_to_map hord ∪ h.
Proof.
  revert h. induction hord as [|[k vs] hord' IH]; intros h Hall Hnd Hfresh.
  - simpl. by rewrite map_empty_union.
  - apply Forall_cons in Hall as [[Hk Hvs] Hall].
    apply NoDup_cons in Hnd as [Hkn Hnd].
    unfold copy_headers. simpl. fold (copy_headers hord' (fold_left
      (fun h value => header_add k value h) vs h)).
    destruct vs as [|v vs]; [done|].
    rewrite add_values_cons by done.
    rewrite (Hfresh k) by (simpl; set_solver). simpl.
    rewrite IH; [| done | done |].
    + rewrite <- insert_union_l, insert_union_r; [done|].
      by apply not_elem_of_list_to_map_1.
    + intros k' Hk'. rewrite lookup_insert_ne; [|set_solver].
      apply Hfresh. simpl. set_solver.
Qed.

Lemma copy_headers_fresh (hord : list (string * list string)) (H : header) :
  hord ≡ₚ map_to_list H ->
  map_Forall (fun k vs => canonical_key k = k /\ vs <> []) H ->
  copy_headers hord ∅ = H.
Proof.
  intros Hord HF. rewrite copy_headers_union.
  - rewrite map_union_empty.
    rewrite (list_to_map_proper hord (map_to_list H)); [|by rewrite Hord; apply NoDup_fst_map_to_list|done].
    apply list_to_map_to_list.
  - apply Forall_forall. intros [k vs] Hin0.
    pose proof Hin0 as Hin. rewrite Hord in Hin. apply elem_of_map_to_list in Hin. exact (HF k vs Hin).
  - rewrite Hord. apply NoDup_fst_map_to_list.
  - intros k _. apply lookup_empty.
Qed.

(** C5 (counterexample).  With tracing enabled, a backend that sends its
    own [Lb-From] header does not get it through: [Set("lb-from", dst)]
    replaces its value. *)
Lemma forward_headers_counterexample :
  let g := main_globals [ArgTrace true] in
  let resp := {| status_code := 200;
                 resp_header := {[ "Lb-From" := ["origin"] ]};
                 resp_body := BodyOk [] |} in
  let do : client := fun _ => DoOk resp in
  let r := {| req_method := "GET"; req_scheme := "http"; req_url_host := "";
              req_path := "/"; req_host := "balancer:8090"; req_body := [];
              req_timeout := None |} in
  let '(_, w', _) := forward g do "server1:8080" r 0 [("Lb-From", ["origin"])]
                       (init_traffic serversPool) fresh_writer in
  exists h, rw_sent w' = Some (200, h) /\
    h !! "Lb-From" = Some ["server1:8080"] /\
    ~ (forall k vs, resp_header resp !! k = Some vs -> h !! k = Some vs).
Proof.
  vm_compute. eexists. split; [reflexivity|]. split; [reflexivity|].
  intros Hall. specialize (Hall "Lb-From" ["origin"] eq_refl).
  vm_compute in Hall. discriminate.
Qed.

(** C5 (amended).  When the backend call succeeds and its body is read,
    with the backend's headers as the transport delivers them (canonical
    keys, each with at least one value), [forward] on a fresh response
    writer returns no error, hands the whole body to [Write], and sends
    the backend's status code with exactly the backend's headers when
    tracing is off; when tracing is on, with the backend's headers except
    that [Lb-From] is set to [[dst]], replacing any value the backend
    gave it. *)
Theorem forward_relays_response (g : globals) (do : client) (dst : string)
    (r : request) (now : Z) (hord : list (string * list string)) (m : ledger)
    (resp : response) (bodyBytes : list Byte.byte) :
  do (fwd_request g dst r) = DoOk resp ->
  resp_body resp = BodyOk bodyBytes ->
  hord ≡ₚ map_to_list (resp_header resp) ->
  map_Forall (fun k vs => canonical_key k = k /\ vs <> []) (resp_header resp) ->
  let '(_, w', e) := forward g do dst r now hord m fresh_writer in
  e = None /\ rw_body w' = bodyBytes /\
  rw_sent w' = Some (status_code resp,
                     if traceEnabled g
                     then <["Lb-From" := [dst]]> (resp_header resp)
                     else resp_header resp).
Proof.
  intros Hdo Hbody Hord HF. unfold forward. rewrite Hdo, Hbody. simpl.
  rewrite (copy_headers_fresh hord (resp_header resp)) by done.
  destruct (traceEnabled g); simpl; [|done].
  unfold header_set. by rewrite canonical_lb_from.
Qed.

Lemma forward_relays_response_witness :
  let g := main_globals [ArgTrace true] in
  let resp := {| status_code := 201;
                 resp_header := {[ "Data-Size" := ["3"] ]};
                 resp_body := BodyOk [Byte.x61; Byte.x62; Byte.x63] |} in
  let do : client := fun _ => DoOk resp in
  let r := {| req_method := "GET"; req_scheme := "http"; req_url_host := "";
              req_path := "/"; req_host := "balancer:8090"; req_body := [];
              req_timeout := None |} in
  let '(_, w', e) := forward g do "server1:8080" r 0 [("Data-Size", ["3"])]
                       (init_traffic serversPool) fresh_writer in
  e = None /\ rw_body w' = [Byte.x61; Byte.x62; Byte.x63] /\
  rw_sent w' = Some (201, <["Lb-From" := ["server1:8080"]]> {[ "Data-Size" := ["3"] ]}).
Proof.
  intros g resp do r.
  pose proof (forward_relays_response g do "server1:8080" r 0 [("Data-Size", ["3"])]
                (init_traffic serversPool) resp [Byte.x61; Byte.x62; Byte.x63]
                eq_refl eq_refl) as H.
  specialize (H ltac:(unfold resp; simpl; by rewrite map_to_list_singleton)).
  specialize (H ltac:(unfold resp; simpl; intros k vs Hk; apply lookup_singleton_Some in Hk as [<- <-];
                      split; [reflexivity | discriminate])).
  exact H.
Defined.

(* ------------------------------------------------------------------ *)
(** ** Health probe *)

(** C6 (counterexample).  A backend answering its health probe with
    [204 No Content], a success-class status, is reported unhealthy:
    [health] compares the status with [http.StatusOK] only. *)
Lemma health_counterexample :
  let do : client := fun _ => DoOk {| status_code := 204; resp_header := ∅;
                                      resp_body := BodyOk [] |} in
  200 <= 204 < 300 /\ health (main_globals []) do "server1:8080" = false.
Proof. split; [lia | reflexivity]. Qed.

(** C6 (amended).  [health] is [true] exactly when the GET of
    [scheme://dst/health] (bounded by [timeout]) returns a response
    without transport error and its status is 200; every transport
    error, an unreachable or unknown address among them, and every other
    status yield [false]. *)
Theorem health_spec (g : globals) (do : client) (dst : string) :
  health_request g dst =
    {| req_method := "GET"; req_scheme := scheme g; req_url_host := dst;
       req_path := "/health"; req_host := dst; req_body := [];
       req_timeout := Some (timeout g) |} /\
  (health g do dst = true <->
   exists resp, do (health_request g dst) = DoOk resp /\ status_code resp = 200).
Proof.
  split; [reflexivity|]. unfold health.
  destruct (do (health_request g dst)) as [e|resp]; split.
  - discriminate.
  - intros (resp & Hr & _). discriminate.
  - intros H. exists resp. split; [done|]. by destruct (Z.eqb_spec (status_code resp) 200).
  - intros (resp' & Hr & Hs). injection Hr as <-. by rewrite Hs.
Qed.

(* ------------------------------------------------------------------ *)
(** ** The timeout *)

Lemma apply_flags_timeout (args : list flag_arg) (g : globals) :
  timeout (flag_parse args g) = timeout g.
Proof.
  unfold flag_parse. revert g. induction args as [|a args IH]; intros g; simpl.
  - done.
  - rewrite IH. by destruct a.
Qed.

(** [flag.Parse] runs after [timeout] was computed: whatever the command
    line says, [timeout] is [3 * time.Second]. *)
Lemma timeout_is_default (args : list flag_arg) :
  timeout (main_globals args) = 3 * second.
Proof. unfold main_globals. rewrite apply_flags_timeout. reflexivity. Qed.

(** C9 (evaluated at [-timeout-sec=10]).  The flag's cell holds 10, and
    both the health probe and the forwarded call share the one [timeout]
    variable, but it is still 3 seconds. *)
Theorem timeout_flag_ignored (dst : string) (r : request) :
  let g := main_globals [ArgTimeoutSec 10] in
  timeoutSec g = 10 /\
  req_timeout (health_request g dst) = Some (3 * second) /\
  req_timeout (fwd_request g dst r) = Some (3 * second).
Proof.
  intros g. repeat split; reflexivity.
Qed.

(* ------------------------------------------------------------------ *)
(** ** The dispatcher *)

(** C8 (empty pool).  With no configured backend the ledger built by
    [main] is empty; a dispatch then sends 503, forwards nothing (no call
    of [Do] is made, whatever the network would answer), and leaves the
    ledger empty, so the next dispatch is in the same situation. *)
Theorem handler_empty_pool (g : globals) (do : client)
    (ord : list (string * list sizeTimestamp)) (r : request) (now : Z)
    (hord : list (string * list string)) (w : writer) :
  ord ≡ₚ map_to_list (init_traffic []) ->
  rw_sent w = None ->
  let '(m', w', d) := handler g do ord r now hord (init_traffic []) w in
  m' = ∅ /\ d = NoServer /\ rw_sent w' = Some (503, rw_header w) /\
  rw_body w' = rw_body w.
Proof.
  intros Hord Hw. change (init_traffic []) with (∅ : ledger) in *.
  rewrite map_to_list_empty in Hord.
  apply Permutation_nil_r in Hord as ->.
  unfold handler, select. simpl. unfold write_header. rewrite Hw. auto.
Qed.

Lemma handler_empty_pool_witness :
  let '(m', w', d) :=
    handler (main_globals []) (fun _ => DoErr ErrOther) [] 
      {| req_method := "GET"; req_scheme := "http"; req_url_host := "";
         req_path := "/"; req_host := "balancer:8090"; req_body := [];
         req_timeout := None |} 0 [] (init_traffic []) fresh_writer in
  m' = ∅ /\ d = NoServer /\ rw_sent w' = Some (503, ∅).
Proof.
  pose proof (handler_empty_pool (main_globals []) (fun _ => DoErr ErrOther) []
      {| req_method := "GET"; req_scheme := "http"; req_url_host := "";
         req_path := "/"; req_host := "balancer:8090"; req_body := [];
         req_timeout := None |} 0 [] fresh_writer
      ltac:(change (init_traffic []) with (∅ : ledger); by rewrite map_to_list_empty)
      eq_refl) as H.
  destruct (handler _ _ _ _ _ _ _ _) as [[m' w'] d].
  destruct H as (Hm & Hd & Hs & _). auto.
Defined.

(** Range of [int]: every [int] sum lies in [[min_int, max_int]]. *)
Lemma wrap64_range (z : Z) : min_int <= wrap64 z <= max_int.
Proof.
  unfold wrap64, min_int, max_int, int_modulus.
  pose proof (Z.mod_pos_bound (z + 2 ^ 63) (2 ^ 64) ltac:(lia)). lia.
Qed.

Lemma go_sum_le_max (q : list sizeTimestamp) : go_sum q <= max_int.
Proof.
  unfold go_sum. destruct q as [|st q] using rev_ind; simpl.
  - unfold max_int. lia.
  - rewrite fold_left_app. simpl. apply wrap64_range.
Qed.

(** Ledger keys are server names, never the empty string that the
    handler uses for "no server". *)
Definition keys_nonempty (m : ledger) : Prop :=
  forall k, k ∈ dom m -> k <> "".

Lemma keys_nonempty_init : keys_nonempty (init_traffic serversPool).
Proof.
  intros k Hk. vm_compute in Hk.
  repeat (apply elem_of_union in Hk as [Hk|Hk];
          [apply elem_of_singleton in Hk as ->; discriminate|]).
  all: try (apply elem_of_singleton in Hk as ->; discriminate).
  all: set_solver.
Qed.

Lemma keys_nonempty_increment (m : ledger) (dst : string) (sz now : Z) :
  keys_nonempty m -> dst <> "" -> keys_nonempty (incrementTraffic dst sz now m).
Proof.
  intros Hm Hd k Hk. unfold incrementTraffic in Hk. rewrite dom_insert_L in Hk.
  apply elem_of_union in Hk as [Hk|Hk]; [apply elem_of_singleton in Hk as ->; done|].
  by apply Hm.
Qed.

Lemma keys_nonempty_reduce (m : ledger) (ord : list (string * list sizeTimestamp))
    (clock : nat -> Z) :
  ord ≡ₚ map_to_list m -> keys_nonempty m -> keys_nonempty (reduce_pass ord clock 0 m).
Proof.
  intros Hord Hm k Hk. apply Hm. apply elem_of_dom in Hk. apply elem_of_dom.
  destruct (m !! k) eqn:E; [done|].
  rewrite (reduce_pass_absent m ord clock k Hord E) in Hk. by destruct Hk.
Qed.

Lemma forward_ledger (g : globals) (do : client) (dst : string) (r : request)
    (now : Z) (hord : list (string * list string)) (m : ledger) (w : writer) :
  let '(m', _, _) := forward g do dst r now hord m w in
  m' = m \/ exists sz, m' = incrementTraffic dst sz now m.
Proof.
  unfold forward. destruct (do (fwd_request g dst r)) as [e|resp]; [by left|].
  destruct (resp_body resp); [right; eauto | by left].
Qed.

(** The handler forwards only to the selected, non-empty server name, so
    every state reached from [main]'s ledger has non-empty keys. *)
Lemma keys_nonempty_handler (g : globals) (do : client)
    (ord : list (string * list sizeTimestamp)) (r : request) (now : Z)
    (hord : list (string * list string)) (m : ledger) (w : writer) :
  keys_nonempty m ->
  let '(m', _, _) := handler g do ord r now hord m w in keys_nonempty m'.
Proof.
  intros Hm. unfold handler.
  destruct (String.eqb_spec (select ord) "") as [_|Hne]; [done|].
  pose proof (forward_ledger g do (select ord) r now hord m w) as Hf.
  destruct (forward g do (select ord) r now hord m w) as [[m' w'] e].
  destruct Hf as [->|[sz ->]]; [done|]. by apply keys_nonempty_increment.
Qed.

(** C10 (when the handler finds no server).  On a ledger whose keys are
    server names (as every ledger reached from [main] is), the loop ends
    with [minTrafficServer == ""] exactly when every backend's sum equals
    [max_int]; in particular on a non-empty ledger with one sum below
    [max_int] a backend is always selected, and the "No servers
    available" branch needs an empty ledger or all sums at [max_int]. *)
Theorem select_none_iff (m : ledger) (ord : list (string * list sizeTimestamp)) :
  ord ≡ₚ map_to_list m ->
  keys_nonempty m ->
  (select ord = "" <-> forall k q, m !! k = Some q -> go_sum q = max_int).
Proof.
  intros Hord Hkeys. unfold select.
  pose proof (select_loop_spec ord "" max_int) as Hspec.
  destruct (select_loop ord "" max_int) as [s t] eqn:E; simpl.
  destruct Hspec as (_ & Hall & Hcase). split.
  - intros ->. destruct Hcase as [Heq | (pre & q & post & Hsplit & Hq & Hlt & _)].
    + injection Heq as ->. intros k q Hk.
      pose proof (Hall (k, q) (proj2 (ord_lookup m ord k q Hord) Hk)).
      pose proof (go_sum_le_max q). simpl in *. lia.
    + exfalso. assert (Hin : m !! "" = Some q).
      { apply (ord_lookup m ord); [done|]. rewrite Hsplit. set_solver. }
      apply (Hkeys ""); [apply elem_of_dom; eauto | done].
  - intros Hmax. destruct Hcase as [Heq | (pre & q & post & Hsplit & Hq & Hlt & _)].
    + by injection Heq as ->.
    + exfalso. assert (Hin : m !! s = Some q).
      { apply (ord_lookup m ord); [done|]. rewrite Hsplit. set_solver. }
      specialize (Hmax s q Hin). lia.
Qed.

Lemma select_none_iff_witness :
  select (map_to_list (init_traffic serversPool)) <> "".
Proof.
  intros Hsel.
  apply (select_none_iff (init_traffic serversPool)
           (map_to_list (init_traffic serversPool)) (reflexivity _)
           keys_nonempty_init) with (k := "server1:8080") (q := []) in Hsel.
  - vm_compute in Hsel. discriminate.
  - reflexivity.
Defined.

(* ------------------------------------------------------------------ *)
(** ** Initial ledger *)

Lemma init_traffic_fold (pool : list string) (m0 : ledger) (k : string) :
  fold_left (fun m server => <[server := []]> m) pool m0 !! k =
  if bool_decide (k ∈ pool) then Some [] else m0 !! k.
Proof.
  revert m0. induction pool as [|a pool IH]; intros m0; cbn [fold_left].
  - case_bool_decide; [set_solver|done].
  - rewrite IH. rewrite lookup_insert.
    repeat case_bool_decide; repeat case_decide; subst; try done; set_solver.
Qed.

(** [main], lines 146-150: after initialisation every pooled server has
    an empty queue, and no other key is in the ledger. *)
Theorem init_traffic_lookup (pool : list string) (k : string) :
  init_traffic pool !! k = if bool_decide (k ∈ pool) then Some [] else None.
Proof. unfold init_traffic. by rewrite init_traffic_fold, lookup_empty. Qed.

(* ------------------------------------------------------------------ *)
(** ** Invariants of the reachable ledgers *)

(** A server the selection loop returns is a key of the ledger. *)
Lemma select_in_dom (m : ledger) (ord : list (string * list sizeTimestamp)) :
  ord ≡ₚ map_to_list m -> select ord <> "" -> select ord ∈ dom m.
Proof.
  intros Hord Hne. unfold select in *.
  pose proof (select_loop_spec ord "" max_int) as Hspec.
  destruct (select_loop ord "" max_int) as [s t]; simpl in *.
  destruct Hspec as (_ & _ & [Heq | (pre & q & post & Hsplit & _)]).
  - injection Heq as -> ->. congruence.
  - apply elem_of_dom. exists q. apply (ord_lookup m ord); [done|].
    rewrite Hsplit. set_solver.
Qed.

Lemma reduce_pass_present (m : ledger) (ord : list (string * list sizeTimestamp))
    (clock : nat -> Z) (k : string) (q : list sizeTimestamp) :
  ord ≡ₚ map_to_list m -> m !! k = Some q ->
  exists j, reduce_pass ord clock 0 m !! k = Some (prune_queue (clock j) q).
Proof.
  intros Hord Hk.
  assert (Hnd : NoDup ord.*1) by (rewrite Hord; apply NoDup_fst_map_to_list).
  assert (Hin : (k, q) ∈ ord) by (by apply (ord_lookup m ord)).
  apply list_elem_of_lookup in Hin as [j Hj]. exists j.
  exact (proj1 (reduce_pass_lookup ord clock 0 m k Hnd) j q Hj).
Qed.

Lemma reduce_pass_dom (m : ledger) (ord : list (string * list sizeTimestamp))
    (clock : nat -> Z) :
  ord ≡ₚ map_to_list m -> dom (reduce_pass ord clock 0 m) = dom m.
Proof.
  intros Hord. apply set_eq. intros k. rewrite !elem_of_dom.
  destruct (m !! k) as [q|] eqn:E.
  - destruct (reduce_pass_present m ord clock k q Hord E) as [j ->]. split; eauto.
  - rewrite (reduce_pass_absent m ord clock k Hord E). done.
Qed.

(** Keys of the ledger: exactly the servers of [serversPool], in every
    reachable state.  Entries are neither added nor removed after
    [main]'s initialisation. *)
Theorem reachable_dom (t : Z) (m : ledger) :
  reachable t m -> dom m = list_to_set serversPool.
Proof.
  induction 1 as [t|t t' m _ _ IH|t m t0 m0 ord0 n _ IH0 Hord0 Hne _ _ IH
                 |t m ord clock Hord _ IH].
  - apply set_eq. intros k. rewrite elem_of_dom, elem_of_list_to_set.
    unfold init_traffic. rewrite init_traffic_fold, lookup_empty.
    case_bool_decide; split; intros H'; try done; by destruct H'.
  - done.
  - unfold incrementTraffic. rewrite dom_insert_L, IH.
    pose proof (select_in_dom m0 ord0 Hord0 Hne) as Hs. rewrite IH0 in Hs.
    set_solver.
  - by rewrite reduce_pass_dom.
Qed.

Abbreviation ts_le := (fun a b : sizeTimestamp => timestamp a <= timestamp b).

Lemma strongly_sorted_snoc (q : list sizeTimestamp) (x : sizeTimestamp) :
  StronglySorted ts_le q -> Forall (fun y => ts_le y x) q ->
  StronglySorted ts_le (q ++ [x]).
Proof.
  induction q as [|a q IH]; intros Hs Hx; simpl.
  - repeat constructor.
  - apply StronglySorted_inv in Hs as [Hs Ha]. apply Forall_cons in Hx as [Hax Hx].
    constructor; [by apply IH|]. apply Forall_app; split; [done|]. by constructor.
Qed.

Lemma forall_list_filter {A} (P : A -> Prop) (f : A -> bool) (l : list A) :
  Forall P l -> Forall P (List.filter f l).
Proof.
  intros H. apply Forall_forall. intros x Hx. apply list_elem_of_In, filter_In in Hx.
  rewrite Forall_forall in H. apply H, list_elem_of_In, Hx.
Qed.

Lemma strongly_sorted_filter (f : sizeTimestamp -> bool) (q : list sizeTimestamp) :
  StronglySorted ts_le q -> StronglySorted ts_le (List.filter f q).
Proof.
  induction q as [|a q IH]; intros Hs; simpl; [constructor|].
  apply StronglySorted_inv in Hs as [Hs Ha].
  destruct (f a); [constructor|]; auto. by apply forall_list_filter.
Qed.

(** Queues of a reachable ledger are in append order, oldest first
    (timestamps non-decreasing); every sample's size is a byte count
    ([0 <= size <= max_int]) and its timestamp is not in the future. *)
Theorem reachable_queues (t : Z) (m : ledger) :
  reachable t m ->
  forall k q, m !! k = Some q ->
    StronglySorted ts_le q /\
    Forall (fun st => 0 <= size st <= max_int /\ timestamp st <= t) q.
Proof.
  induction 1 as [t|t t' m Htt _ IH|t m t0 m0 ord0 n _ _ _ _ Hn _ IH
                 |t m ord clock Hord _ IH]; intros k q Hk.
  - unfold init_traffic in Hk. rewrite init_traffic_fold, lookup_empty in Hk.
    case_bool_decide; [|done]. injection Hk as <-. split; constructor.
  - destruct (IH k q Hk) as [Hs Hf]. split; [done|].
    eapply Forall_impl; [exact Hf|]. intros st [? ?]. split; [done|lia].
  - unfold incrementTraffic in Hk. rewrite lookup_insert in Hk. case_decide as Heq.
    + injection Hk as <-. subst k.
      assert (Hq : StronglySorted ts_le (lookup_queue m (select ord0)) /\
                   Forall (fun st => 0 <= size st <= max_int /\ timestamp st <= t)
                     (lookup_queue m (select ord0))).
      { unfold lookup_queue. destruct (m !! select ord0) as [q0|] eqn:E; simpl.
        - by apply (IH (select ord0)).
        - split; constructor. }
      destruct Hq as [Hs Hf]. split.
      * apply strongly_sorted_snoc; [done|].
        eapply Forall_impl; [exact Hf|]. intros st [_ ?]. simpl. lia.
      * apply Forall_app. split; [done|]. constructor; [simpl; lia|constructor].
    + by apply (IH k).
  - destruct (m !! k) as [q0|] eqn:E.
    + destruct (reduce_pass_present m ord clock k q0 Hord E) as [j Hj].
      rewrite Hj in Hk. injection Hk as <-. destruct (IH k q0 E) as [Hs Hf].
      split; [by apply strongly_sorted_filter | by apply forall_list_filter].
    + by rewrite (reduce_pass_absent m ord clock k Hord E) in Hk.
Qed.

(* ------------------------------------------------------------------ *)
(** ** Loads as exact sums *)





(* ------------------------------------------------------------------ *)
(** ** Successive sweeps *)

(** Two sweep ticks over a queue, the second at a later clock reading,
    keep exactly what the later tick alone would keep. *)
Theorem prune_queue_compose (n1 n2 : Z) (q : list sizeTimestamp) :
  n1 <= n2 -> prune_queue n2 (prune_queue n1 q) = prune_queue n2 q.
Proof.
  intros Hn. unfold prune_queue. induction q as [|a q IH]; simpl; [done|].
  destruct (Z.ltb_spec (n1 - 5 * second) (timestamp a)) as [H1|H1]; simpl.
  - destruct (Z.ltb_spec (n2 - 5 * second) (timestamp a)); by rewrite IH.
  - destruct (Z.ltb_spec (n2 - 5 * second) (timestamp a)) as [H2|H2]; [lia|done].
Qed.

Lemma prune_queue_compose_witness :
  prune_queue (7 * second) (prune_queue (6 * second)
    [{| size := 1; timestamp := 0 |}; {| size := 2; timestamp := 2 * second |};
     {| size := 3; timestamp := 3 * second |}]) =
  prune_queue (7 * second)
    [{| size := 1; timestamp := 0 |}; {| size := 2; timestamp := 2 * second |};
     {| size := 3; timestamp := 3 * second |}].
Proof. apply prune_queue_compose. unfold second. lia. Defined.





Lemma reachable_dom_witness :
  dom (incrementTraffic (select (map_to_list (init_traffic serversPool))) 5 0
         (init_traffic serversPool)) = list_to_set serversPool.
Proof.
  apply (reachable_dom 0).
  apply (reach_record 0 (init_traffic serversPool) 0 (init_traffic serversPool)
           (map_to_list (init_traffic serversPool)) 5).
  - apply reach_init.
  - reflexivity.
  - vm_compute. discriminate.
  - unfold max_int. lia.
  - apply reach_init.
Defined.

Lemma reachable_queues_witness :
  StronglySorted ts_le [{| size := 5; timestamp := 0 |}] /\
  Forall (fun st => 0 <= size st <= max_int /\ timestamp st <= 0)
    [{| size := 5; timestamp := 0 |}].
Proof.
  apply (reachable_queues 0
           (incrementTraffic (select (map_to_list (init_traffic serversPool))) 5 0
              (init_traffic serversPool))
           ltac:(apply (reach_record 0 (init_traffic serversPool) 0
                          (init_traffic serversPool)
                          (map_to_list (init_traffic serversPool)) 5);
                 [apply reach_init | reflexivity | vm_compute; discriminate
                 | unfold max_int; lia | apply reach_init])
           (select (map_to_list (init_traffic serversPool)))).
  vm_compute. reflexivity.
Defined.

(* ------------------------------------------------------------------ *)
(** ** Traversal order and the choice of backend *)

(** When no two backends have the same summed load, the backend the
    handler selects does not depend on the order in which [range traffic]
    visits the ledger: the map's iteration order matters only on ties. *)
Theorem select_order_independent (m : ledger)
    (ord1 ord2 : list (string * list sizeTimestamp)) :
  ord1 ≡ₚ map_to_list m -> ord2 ≡ₚ map_to_list m ->
  (forall k1 k2 q1 q2, m !! k1 = Some q1 -> m !! k2 = Some q2 -> k1 <> k2 ->
     go_sum q1 <> go_sum q2) ->
  select ord1 = select ord2.
Proof.
  intros H1 H2 Hdist. unfold select.
  pose proof (select_loop_spec ord1 "" max_int) as S1.
  pose proof (select_loop_spec ord2 "" max_int) as S2.
  destruct (select_loop ord1 "" max_int) as [s1 t1].
  destruct (select_loop ord2 "" max_int) as [s2 t2]. simpl.
  destruct S1 as (_ & All1 & [E1 | (pre1 & q1 & post1 & Sp1 & Q1 & L1 & _)]);
  destruct S2 as (_ & All2 & [E2 | (pre2 & q2 & post2 & Sp2 & Q2 & L2 & _)]).
  - injection E1 as -> ->. by injection E2 as -> ->.
  - exfalso. injection E1 as -> ->.
    assert (Hin : (s2, q2) ∈ ord1).
    { rewrite H1, <- H2, Sp2. set_solver. }
    specialize (All1 _ Hin). simpl in All1. lia.
  - exfalso. injection E2 as -> ->.
    assert (Hin : (s1, q1) ∈ ord2).
    { rewrite H2, <- H1, Sp1. set_solver. }
    specialize (All2 _ Hin). simpl in All2. lia.
  - assert (M1 : m !! s1 = Some q1).
    { apply (ord_lookup m ord1); [done|]. rewrite Sp1. set_solver. }
    assert (M2 : m !! s2 = Some q2).
    { apply (ord_lookup m ord2); [done|]. rewrite Sp2. set_solver. }
    destruct (decide (s1 = s2)) as [|Hne]; [done|]. exfalso.
    apply (Hdist s1 s2 q1 q2 M1 M2 Hne).
    assert (A : t1 <= go_sum q2)
      by (apply (All1 (s2, q2)); apply (ord_lookup m ord1); done).
    assert (B : t2 <= go_sum q1)
      by (apply (All2 (s1, q1)); apply (ord_lookup m ord2); done).
    lia.
Qed.

Lemma select_order_independent_witness :
  select [("server1:8080", [{| size := 4; timestamp := 0 |}]);
          ("server2:8080", [{| size := 2; timestamp := 0 |}])] =
  select [("server2:8080", [{| size := 2; timestamp := 0 |}]);
          ("server1:8080", [{| size := 4; timestamp := 0 |}])].
Proof.
  apply (select_order_independent
           {[ "server1:8080" := [{| size := 4; timestamp := 0 |}];
              "server2:8080" := [{| size := 2; timestamp := 0 |}] ]}).
  - rewrite map_to_list_insert; [|by vm_compute].
    rewrite map_to_list_singleton. reflexivity.
  - rewrite map_to_list_insert; [|by vm_compute].
    rewrite map_to_list_singleton. apply Permutation_swap.
  - intros k1 k2 q1 q2 Hk1 Hk2 Hne.
    apply lookup_insert_Some in Hk1 as [[<- <-]|[_ Hk1]];
    apply lookup_insert_Some in Hk2 as [[<- <-]|[_ Hk2]];
    try (apply lookup_singleton_Some in Hk1 as [<- <-]);
    try (apply lookup_singleton_Some in Hk2 as [<- <-]);
    try done; vm_compute; discriminate.
Defined.

(* ------------------------------------------------------------------ *)
(** ** What one request does *)

(** The frontend handler on a fresh response writer: either it finds no
    server, answers 503 and changes nothing; or it forwards to the
    selected server, a key of the ledger.  The ledger then gains exactly
    one sample, [len(bodyBytes)] for that server at time [now], when the
    call and the body read succeed, and the caller gets the backend's
    status and body; otherwise the ledger is unchanged and the caller
    gets 503 or 500 with no body. *)
Theorem handler_outcome (g : globals) (do : client)
    (ord : list (string * list sizeTimestamp)) (r : request) (now : Z)
    (hord : list (string * list string)) (m : ledger) :
  ord ≡ₚ map_to_list m ->
  let '(m', w', d) := handler g do ord r now hord m fresh_writer in
  match d with
  | NoServer => m' = m /\ rw_sent w' = Some (503, ∅) /\ rw_body w' = []
  | Forwarded s err =>
      s = select ord /\ s ∈ dom m /\
      match err with
      | Some _ =>
          m' = m /\ rw_body w' = [] /\
          (rw_sent w' = Some (503, ∅) \/ rw_sent w' = Some (500, ∅))
      | None =>
          exists resp bodyBytes,
            do (fwd_request g s r) = DoOk resp /\ resp_body resp = BodyOk bodyBytes /\
            m' = incrementTraffic s (Z.of_nat (length bodyBytes)) now m /\
            rw_body w' = bodyBytes /\
            exists h, rw_sent w' = Some (status_code resp, h)
      end
  end.
Proof.
  intros Hord. unfold handler.
  destruct (String.eqb_spec (select ord) "") as [_|Hne]; [simpl; auto|].
  pose proof (select_in_dom m ord Hord Hne) as Hdom.
  unfold forward. destruct (do (fwd_request g (select ord) r)) as [e|resp] eqn:Hdo.
  - simpl. auto 10.
  - destruct (resp_body resp) as [bodyBytes|] eqn:Hb; simpl.
    + split; [done|]. split; [done|]. exists resp, bodyBytes.
      repeat split; try done; destruct (traceEnabled g); simpl; eauto.
    + auto 10.
Qed.

Lemma handler_outcome_witness :
  let do : client := fun _ => DoErr ErrConnRefused in
  let r := {| req_method := "GET"; req_scheme := "http"; req_url_host := "";
              req_path := "/"; req_host := "balancer:8090"; req_body := [];
              req_timeout := None |} in
  let '(m', w', d) := handler (main_globals []) do
                        (map_to_list (init_traffic serversPool)) r 0 []
                        (init_traffic serversPool) fresh_writer in
  match d with
  | NoServer => m' = init_traffic serversPool /\ rw_sent w' = Some (503, ∅) /\ rw_body w' = []
  | Forwarded s err =>
      s = select (map_to_list (init_traffic serversPool)) /\
      s ∈ dom (init_traffic serversPool) /\
      match err with
      | Some _ =>
          m' = init_traffic serversPool /\ rw_body w' = [] /\
          (rw_sent w' = Some (503, ∅) \/ rw_sent w' = Some (500, ∅))
      | None =>
          exists resp bodyBytes,
            do (fwd_request (main_globals []) s r) = DoOk resp /\
            resp_body resp = BodyOk bodyBytes /\
            m' = incrementTraffic s (Z.of_nat (length bodyBytes)) 0
                   (init_traffic serversPool) /\
            rw_body w' = bodyBytes /\
            exists h, rw_sent w' = Some (status_code resp, h)
      end
  end.
Proof.
  intros do r.
  pose proof (handler_outcome (main_globals []) do
                (map_to_list (init_traffic serversPool)) r 0 []
                (init_traffic serversPool) (reflexivity _)) as H.
  revert H. apply id.
Defined.
